(** * Real-time fan-out of the room messaging server (package api)

    Shallow embedding of the websocket subscription registry, the
    dispatcher [notifyClients], the connection lifecycle of
    [handleSubscribe], the room resolution [readRoom] and the listing
    handlers of the Go package [api]. *)

From stdpp Require Import base gmap strings list fin_maps.
Open Scope string_scope.
Open Scope list_scope.
#[local] Set Warnings "-register-all".

(* ------------------------------------------------------------------ *)
(** ** JSON values and encoding/json *)

Inductive JSON :=
| JNull
| JBool (b : bool)
| JNumber (z : Z)
| JString (s : string)
| JArray (l : list JSON)
| JObject (kvs : list (string * JSON)).

(** A struct field as encoding/json sees it: Go name, json tag, value. *)
Record Field := mkField { f_name : string; f_tag : string; f_val : JSON }.

Definition json_key (f : Field) : string :=
  if decide (f_tag f = "") then f_name f else f_tag f.

(** encoding/json on a struct: fields in declaration order, a field
    tagged ["-"] is skipped, the key is the tag name when present. *)
Definition encode_struct (fs : list Field) : JSON :=
  JObject (map (fun f => (json_key f, f_val f))
               (filter (fun f => f_tag f <> "-") fs)).

(** A Go slice: [None] is the nil slice, which encoding/json writes as
    [null]; a non-nil slice (possibly empty) is an array. *)
Definition encode_slice {A} (enc : A -> JSON) (s : option (list A)) : JSON :=
  match s with
  | None => JNull
  | Some l => JArray (map enc l)
  end.

(* ------------------------------------------------------------------ *)
(** ** Event messages *)

Record MessageMessageCreated := mkMessageCreated {
  mc_ID : string;
  mc_Message : string }.

Record MessageMessageReactionCount := mkMessageReactionCount {
  mrc_ID : string;
  mrc_Count : Z }.   (* int64 *)

(** The dynamic types stored in the [any] field [Message.Value]. *)
Inductive Any :=
| AnyMessageCreated (v : MessageMessageCreated)
| AnyMessageReactionCount (v : MessageMessageReactionCount).

Record Message := mkMessage {
  Kind : string;
  Value : Any;
  RoomID : string }.

Definition MessageKindMessageCreated := "message_created".
Definition MessageKindMessageRactionIncreased := "message_reaction_increased".
Definition MessageKindMessageRactionDecreased := "message_reaction_decreased".
Definition MessageKindMessageAnswered := "message_answered".

Definition fields_MessageMessageCreated (v : MessageMessageCreated) : list Field :=
  [mkField "ID" "id" (JString (mc_ID v));
   mkField "Message" "message" (JString (mc_Message v))].

Definition fields_MessageMessageReactionCount (v : MessageMessageReactionCount) : list Field :=
  [mkField "ID" "id" (JString (mrc_ID v));
   mkField "Count" "count" (JNumber (mrc_Count v))].

Definition marshal_Any (a : Any) : JSON :=
  match a with
  | AnyMessageCreated v => encode_struct (fields_MessageMessageCreated v)
  | AnyMessageReactionCount v => encode_struct (fields_MessageMessageReactionCount v)
  end.

Definition fields_Message (m : Message) : list Field :=
  [mkField "Kind" "kind" (JString (Kind m));
   mkField "Value" "value" (marshal_Any (Value m));
   mkField "RoomID" "-" (JString (RoomID m))].

(** [conn.WriteJSON(msg)] writes [json.Marshal(msg)]. *)
Definition marshal_Message (m : Message) : JSON := encode_struct (fields_Message m).

(* ------------------------------------------------------------------ *)
(** ** Registry and world state *)

(** A [*websocket.Conn] is a pointer: its identity. *)
Definition Conn := nat.
(** A [context.CancelFunc], identified by the context it cancels. *)
Definition CancelFunc := nat.

Abbreviation Subscribers := (gmap string (gmap Conn CancelFunc)).

Inductive Phase := Subscribed | Closed.

(** The per-connection state of a running [handleSubscribe]. *)
Record Lifecycle := mkLifecycle {
  lc_room : string;
  lc_cancel : CancelFunc;
  lc_phase : Phase }.

Record World := mkWorld {
  subscribers : Subscribers;
  done : gset CancelFunc;                 (* contexts whose Done is closed *)
  lifecycles : gmap Conn Lifecycle;
  next_conn : nat }.                      (* fresh pointer allocator *)

(** Observable effects of the dispatcher. *)
Inductive Effect :=
| EvWrite (c : Conn) (payload : JSON) (ok : bool)
| EvLog (msg : string)
| EvCancel (k : CancelFunc).

Definition MsgFailedToSendMessage := "failed to send message to client".

(** [cancel()]: closes the context's Done channel (idempotent). *)
Definition cancel_ctx (k : CancelFunc) (w : World) : World :=
  mkWorld (subscribers w) ({[k]} ∪ done w) (lifecycles w) (next_conn w).

(** The body of [for conn, cancel := range subcribers]: [send] is the
    outcome of [conn.WriteJSON] ([true] when it returns nil). *)
Fixpoint notify_loop (send : Conn -> JSON -> bool) (j : JSON)
    (entries : list (Conn * CancelFunc)) (w : World) : World * list Effect :=
  match entries with
  | [] => (w, [])
  | (c, k) :: rest =>
      if send c j then
        let '(w', effs) := notify_loop send j rest w in
        (w', EvWrite c j true :: effs)
      else
        let '(w', effs) := notify_loop send j rest (cancel_ctx k w) in
        (w', EvWrite c j false :: EvLog MsgFailedToSendMessage :: EvCancel k :: effs)
  end.

(** [notifyClients]: under the mutex, look up the room's set, return
    when absent or empty, otherwise range over it.  Go's map range
    order is unspecified: [range] gives the order of this call. *)
Definition notifyClients (range : gmap Conn CancelFunc -> list (Conn * CancelFunc))
    (send : Conn -> JSON -> bool) (msg : Message) (w : World) : World * list Effect :=
  match subscribers w !! RoomID msg with
  | None => (w, [])
  | Some subs =>
      if decide (size subs = 0) then (w, [])
      else notify_loop send (marshal_Message msg) (range subs) w
  end.

(** A valid range order visits every entry of the map once. *)
Definition range_ok (range : gmap Conn CancelFunc -> list (Conn * CancelFunc)) : Prop :=
  forall m, range m ≡ₚ map_to_list m.

(** The connections a trace attempted to write to. *)
Fixpoint attempted (effs : list Effect) : list Conn :=
  match effs with
  | [] => []
  | EvWrite c _ _ :: rest => c :: attempted rest
  | _ :: rest => attempted rest
  end.

Fixpoint cancels (effs : list Effect) : list CancelFunc :=
  match effs with
  | [] => []
  | EvCancel k :: rest => k :: cancels rest
  | _ :: rest => cancels rest
  end.

(** The connections whose write failed, and the lines logged. *)
Fixpoint failed_writes (effs : list Effect) : list Conn :=
  match effs with
  | [] => []
  | EvWrite c _ false :: rest => c :: failed_writes rest
  | _ :: rest => failed_writes rest
  end.

Fixpoint logged (effs : list Effect) : list string :=
  match effs with
  | [] => []
  | EvLog msg :: rest => msg :: logged rest
  | _ :: rest => logged rest
  end.

(** [h.subscribers[room][c] = cancel], creating the inner map first
    when the room has none. *)
Definition register (room : string) (c : Conn) (k : CancelFunc) (s : Subscribers) : Subscribers :=
  let s1 := match s !! room with
            | Some _ => s
            | None => <[room := ∅]> s
            end in
  <[room := <[c := k]> (default ∅ (s1 !! room))]> s1.

(** [delete(h.subscribers[room], c)]: [h.subscribers[room]] is the nil
    map when the room is absent, and delete on a nil map does nothing. *)
Definition unregister (room : string) (c : Conn) (s : Subscribers) : Subscribers :=
  match s !! room with
  | None => s
  | Some m => <[room := delete c m]> s
  end.

(* ------------------------------------------------------------------ *)
(** ** HTTP side: errors, responses, logs *)

Definition UUID := Z.   (* [16]byte *)

Inductive Error :=
| ErrNoRows                          (* pgx.ErrNoRows *)
| ErrOther (detail : string)
| ErrWrapped (msg : string) (inner : Error).

(** [errors.Is(err, pgx.ErrNoRows)]: follow the wrap chain. *)
Fixpoint is_ErrNoRows (e : Error) : bool :=
  match e with
  | ErrNoRows => true
  | ErrOther _ => false
  | ErrWrapped _ inner => is_ErrNoRows inner
  end.

Inductive Result (A : Type) := Ok (a : A) | Err (e : Error).
Arguments Ok {A} a.
Arguments Err {A} e.

(** What a handler writes to its [http.ResponseWriter]. *)
Inductive HttpWrite :=
| HttpError (msg : string) (code : Z)          (* http.Error(w, msg, code) *)
| HeaderSet (key value : string)               (* w.Header().Set *)
| Body (j : JSON).                             (* w.Write(json.Marshal(..)) *)

Inductive LogEntry :=
| LogError (msg : string) (err : Error)
| LogWarn (msg : string) (err : Error)
| LogInfo (msg : string).

Record Out := mkOut { writes : list HttpWrite; logs : list LogEntry }.

Definition out0 : Out := mkOut [] [].
Definition out_app (o1 o2 : Out) : Out :=
  mkOut (writes o1 ++ writes o2) (logs o1 ++ logs o2).

Definition StatusBadRequest : Z := 400.
Definition StatusNotFound : Z := 404.
Definition StatusInternalServerError : Z := 500.

Definition MsgFailedToGetRoom := "failed to get room".
Definition MsgFailedToGetRoomMessages := "failed to get room messages".
Definition MsgFailedToGetRooms := "failed to get rooms".
Definition MsgFailedToInsertMessage := "failed to insert message".
Definition MsgFailedToReactToMessage := "failed to react to message".
Definition MsgFailedToUpgradeConnection := "failed to upgrade to websocket connection".
Definition MsgInvalidJSON := "invalid json".
Definition MsgInvalidMessageID := "invalid message id".
Definition MsgInvalidRoomID := "invalid room id".
Definition MsgNewClientConnected := "new client connected".
Definition MsgRoomNotFound := "room not found".
Definition MsgSomethingWentWrong := "something went wrong".

Definition http_Error (msg : string) (code : Z) : Out := mkOut [HttpError msg code] [].

(** What gorilla's [Upgrader.returnError] writes when a handshake check
    fails and the upgrader has no [Error] hook (the case of
    [websocket.Upgrader{CheckOrigin: ..}]): the version header, then
    [http.Error(w, http.StatusText(status), status)].  A failure after
    the connection is hijacked writes nothing. *)
Definition upgrader_returnError (status_text : string) (status : Z) : list HttpWrite :=
  [HeaderSet "Sec-Websocket-Version" "13"; HttpError status_text status].

(** [sendJSON(w, rawData)]. *)
Definition sendJSON (data : JSON) : Out :=
  mkOut [HeaderSet "Content-Type" "application/json"; Body data] [].

Section Handlers.
(** The pgstore row types and their JSON encodings (generated code,
    not part of this package). *)
Context {Room PgMessage : Type}.
Context (zero_Room : Room) (marshal_Room : Room -> JSON)
        (marshal_PgMessage : PgMessage -> JSON).

(** The collaborators a request sees: uuid parsing and printing, the
    pgstore queries and the websocket upgrade of this request. *)
Record Env := mkEnv {
  uuid_Parse : string -> option UUID;
  uuid_String : UUID -> string;
  GetRoom : UUID -> Result Room;
  GetRooms : Result (option (list Room));
  GetRoomMessages : UUID -> Result (option (list PgMessage));
  InsertMessage : UUID -> string -> Result UUID;
  ReactToMessage : UUID -> Result Z;
  Upgrade : option (list HttpWrite * Error) }.
    (* [Some (ws, err)] when [h.upgrader.Upgrade(w, r, nil)] fails after
       itself writing [ws] to [w] (see [upgrader_returnError]) *)

Variable env : Env.

(** [readRoom]: returns (room, rawRoomID, roomID, ok). *)
Definition readRoom (rawRoomID : string) : Out * (Room * string * UUID * bool) :=
  match uuid_Parse env rawRoomID with
  | None => (http_Error MsgInvalidRoomID StatusBadRequest, (zero_Room, "", 0%Z, false))
  | Some roomID =>
      match GetRoom env roomID with
      | Err err =>
          if is_ErrNoRows err then
            (http_Error MsgRoomNotFound StatusBadRequest, (zero_Room, "", 0%Z, false))
          else
            (out_app (mkOut [] [LogError MsgFailedToGetRoom err])
                     (http_Error MsgSomethingWentWrong StatusInternalServerError),
             (zero_Room, "", 0%Z, false))
      | Ok room => (out0, (room, rawRoomID, roomID, true))
      end
  end.

(** First half of [handleSubscribe]: resolve the room, upgrade, and
    register the new connection with a fresh cancellable context.
    Returns the connection when the handler reaches [<-ctx.Done()]. *)
Definition handleSubscribe_open (url_room_id : string) (w : World)
    : Out * option Conn * World :=
  let '(o, (_, rawRoomID, _, ok)) := readRoom url_room_id in
  if negb ok then (o, None, w) else
  match Upgrade env with
  | Some (ws, err) =>
      (out_app o (out_app (mkOut ws [LogWarn MsgFailedToUpgradeConnection err])
                          (http_Error MsgFailedToUpgradeConnection StatusBadRequest)),
       None, w)
  | None =>
      let c := next_conn w in
      let cancel := next_conn w in
      (out_app o (mkOut [] [LogInfo MsgNewClientConnected]), Some c,
       mkWorld (register rawRoomID c cancel (subscribers w)) (done w)
               (<[c := mkLifecycle rawRoomID cancel Subscribed]> (lifecycles w))
               (S (next_conn w)))
  end.

Definition handleGetRooms : Out :=
  match GetRooms env with
  | Err err =>
      out_app (mkOut [] [LogError MsgFailedToGetRooms err])
              (http_Error MsgSomethingWentWrong StatusInternalServerError)
  | Ok rooms =>
      let rooms := match rooms with None => Some [] | Some l => Some l end in
      sendJSON (encode_slice marshal_Room rooms)
  end.

Definition handleGetRoom (url_room_id : string) : Out :=
  let '(o, (room, _, _, ok)) := readRoom url_room_id in
  if negb ok then o else out_app o (sendJSON (marshal_Room room)).

Definition handleGetRoomMessages (url_room_id : string) : Out :=
  let '(o, (_, _, roomID, ok)) := readRoom url_room_id in
  if negb ok then o else
  match GetRoomMessages env roomID with
  | Err err =>
      out_app o (out_app (mkOut [] [LogError MsgFailedToGetRoomMessages err])
                         (http_Error MsgSomethingWentWrong StatusInternalServerError))
  | Ok messages =>
      let messages := match messages with None => Some [] | Some l => Some l end in
      out_app o (sendJSON (encode_slice marshal_PgMessage messages))
  end.

(** [handleCreateRoomMessage]; [body] is the decoded request body
    ([None] when decoding fails).  The second component is the message
    handed to [go h.notifyClients(..)], if any. *)
Definition handleCreateRoomMessage (url_room_id : string) (body : option string)
    : Out * option Message :=
  let '(o, (_, rawRoomID, roomID, ok)) := readRoom url_room_id in
  if negb ok then (o, None) else
  match body with
  | None => (out_app o (http_Error MsgInvalidJSON StatusBadRequest), None)
  | Some text =>
      match InsertMessage env roomID text with
      | Err err =>
          (out_app o (out_app (mkOut [] [LogError MsgFailedToInsertMessage err])
                              (http_Error MsgSomethingWentWrong StatusInternalServerError)),
           None)
      | Ok messageID =>
          (out_app o (sendJSON (encode_struct
              [mkField "ID" "id" (JString (uuid_String env messageID))])),
           Some (mkMessage MessageKindMessageCreated
                   (AnyMessageCreated (mkMessageCreated (uuid_String env messageID) text))
                   rawRoomID))
      end
  end.

Definition handleReactToMessage (url_room_id url_message_id : string)
    : Out * option Message :=
  let '(o, (_, rawRoomID, _, ok)) := readRoom url_room_id in
  if negb ok then (o, None) else
  match uuid_Parse env url_message_id with
  | None => (out_app o (http_Error MsgInvalidMessageID StatusBadRequest), None)
  | Some messageID =>
      match ReactToMessage env messageID with
      | Err err =>
          (out_app o (out_app (mkOut [] [LogError MsgFailedToReactToMessage err])
                              (http_Error MsgSomethingWentWrong StatusInternalServerError)),
           None)
      | Ok count =>
          (out_app o (sendJSON (encode_struct [mkField "Count" "count" (JNumber count)])),
           Some (mkMessage MessageKindMessageRactionIncreased
                   (AnyMessageReactionCount (mkMessageReactionCount url_message_id count))
                   rawRoomID))
      end
  end.

End Handlers.

(** Second half of [handleSubscribe], after [<-ctx.Done()] returns:
    remove the connection from its room; [defer c.Close()] ends the
    lifecycle. *)
Definition handleSubscribe_close (c : Conn) (w : World) : World :=
  match lifecycles w !! c with
  | Some lc =>
      mkWorld (unregister (lc_room lc) c (subscribers w)) (done w)
              (<[c := mkLifecycle (lc_room lc) (lc_cancel lc) Closed]> (lifecycles w))
              (next_conn w)
  | None => w
  end.

(** Interleaved steps of all running handlers; each step is one
    critical section of the mutex or an external cancellation. *)
Inductive step : World -> World -> Prop :=
| step_subscribe (Room PgMessage : Type) (zero_Room : Room)
    (env : @Env Room PgMessage) url_room_id w o c w' :
    handleSubscribe_open zero_Room env url_room_id w = (o, Some c, w') ->
    step w w'
| step_disconnect w c lc :
    (* client gone or server shutdown: the request context is cancelled *)
    lifecycles w !! c = Some lc -> lc_phase lc = Subscribed ->
    step w (cancel_ctx (lc_cancel lc) w)
| step_dispatch w range send msg :
    range_ok range ->
    step w (notifyClients range send msg w).1
| step_unsubscribe w c lc :
    lifecycles w !! c = Some lc -> lc_phase lc = Subscribed ->
    lc_cancel lc ∈ done w ->
    step w (handleSubscribe_close c w).

Definition init_world : World := mkWorld ∅ ∅ ∅ 0.

Definition reachable (w : World) : Prop := rtc step init_world w.

(** Several dispatches run one after the other. *)
Fixpoint dispatch_all
    (ds : list ((gmap Conn CancelFunc -> list (Conn * CancelFunc)) * (Conn -> JSON -> bool) * Message))
    (w : World) : World * list Effect :=
  match ds with
  | [] => (w, [])
  | (range, send, msg) :: rest =>
      let '(w1, e1) := notifyClients range send msg w in
      let '(w2, e2) := dispatch_all rest w1 in
      (w2, app e1 e2)
  end.

(** A handle is in at most one room's set. *)
Definition at_most_one_room (s : Subscribers) : Prop :=
  forall r1 r2 m1 m2 c,
    s !! r1 = Some m1 -> s !! r2 = Some m2 ->
    c ∈ dom m1 -> c ∈ dom m2 -> r1 = r2.

(** The registry agrees with the running lifecycles. *)
Definition world_inv (w : World) : Prop :=
  (forall r m c k, subscribers w !! r = Some m -> m !! c = Some k ->
     lifecycles w !! c = Some (mkLifecycle r k Subscribed)) /\
  (forall c lc, lifecycles w !! c = Some lc -> lc_cancel lc = c /\ c < next_conn w).

(* ------------------------------------------------------------------ *)
(** ** The other handlers *)

Definition MsgFailedToGetMessage := "failed to get message".
Definition MsgMessageNotFound := "message not found".

(** [handleGetRoomMessage]; [GetMessage] is [h.q.GetMessage]. *)
Definition handleGetRoomMessage {Room PgMessage} (zero_Room : Room)
    (marshal_PgMessage : PgMessage -> JSON) (env : @Env Room PgMessage)
    (GetMessage : UUID -> Result PgMessage) (url_room_id url_message_id : string) : Out :=
  let '(o, (_, _, _, ok)) := readRoom zero_Room env url_room_id in
  if negb ok then o else
  match uuid_Parse env url_message_id with
  | None => out_app o (http_Error MsgInvalidMessageID StatusBadRequest)
  | Some messageID =>
      match GetMessage messageID with
      | Err err =>
          if is_ErrNoRows err then out_app o (http_Error MsgMessageNotFound StatusNotFound)
          else out_app o (out_app (mkOut [] [LogError MsgFailedToGetMessage err])
                                  (http_Error MsgSomethingWentWrong StatusInternalServerError))
      | Ok message => out_app o (sendJSON (marshal_PgMessage message))
      end
  end.

(** The wire shape of an event: [{"kind": k, "value": v}] with one of
    the four kinds, and the value shapes of the two payload types. *)
Definition wire_shape (j : JSON) : Prop :=
  exists k v,
    j = JObject [("kind", JString k); ("value", v)] /\
    k ∈ [MessageKindMessageCreated; MessageKindMessageRactionIncreased;
         MessageKindMessageRactionDecreased; MessageKindMessageAnswered] /\
    (k = MessageKindMessageCreated ->
       exists id text, v = JObject [("id", JString id); ("message", JString text)]) /\
    (k = MessageKindMessageRactionIncreased ->
       exists id n, v = JObject [("id", JString id); ("count", JNumber n)]).

(** The messages the handlers hand to [go h.notifyClients(..)]. *)
Inductive emitted : Message -> Prop :=
| emitted_create (Room PgMessage : Type) (zero_Room : Room) (env : @Env Room PgMessage)
    url body o msg :
    handleCreateRoomMessage zero_Room env url body = (o, Some msg) -> emitted msg
| emitted_react (Room PgMessage : Type) (zero_Room : Room) (env : @Env Room PgMessage)
    url mid o msg :
    handleReactToMessage zero_Room env url mid = (o, Some msg) -> emitted msg.

(* ------------------------------------------------------------------ *)
(** ** Sample inputs *)

(** A request environment where every collaborator succeeds; the pgstore
    rows are [unit], the listing queries return nil slices. *)
Definition sample_env : @Env unit unit :=
  mkEnv (fun _ => Some 1%Z) (fun _ => "m1") (fun _ => Ok tt) (Ok None)
        (fun _ => Ok None) (fun _ _ => Ok 7%Z) (fun _ => Ok 3%Z) None.

(** The world after one client subscribed to room "r1". *)
Definition world_r1 : World := (handleSubscribe_open tt sample_env "r1" init_world).2.

Definition msg_r1 : Message :=
  mkMessage MessageKindMessageCreated (AnyMessageCreated (mkMessageCreated "m1" "hi")) "r1".

(** A second client subscribed to the same room. *)
Definition world_r1_2 : World := (handleSubscribe_open tt sample_env "r1" world_r1).2.

(** The first client of "r1" disconnected and its handler cleaned up:
    the room keeps an empty set. *)
Definition world_r1_left : World := handleSubscribe_close 0 (cancel_ctx 0 world_r1).

(** Both clients of "r1" connected, the first one disconnected and its
    handler cleaned up. *)
Definition world_r1_2_left : World := handleSubscribe_close 0 (cancel_ctx 0 world_r1_2).

(** A send capability that always fails, and one that fails only for
    connection 0. *)
Definition send_fail (c : Conn) (j : JSON) : bool := false.
Definition send_fail_0 (c : Conn) (j : JSON) : bool := negb (Nat.eqb c 0).

(* ------------------------------------------------------------------ *)
(** ** The dispatch loop *)

Lemma notify_loop_world send j l w :
  subscribers (notify_loop send j l w).1 = subscribers w /\
  lifecycles (notify_loop send j l w).1 = lifecycles w /\
  next_conn (notify_loop send j l w).1 = next_conn w /\
  done (notify_loop send j l w).1 = list_to_set (cancels (notify_loop send j l w).2) ∪ done w.
Proof.
  revert w. induction l as [|[c k] l IH]; intros w; simpl.
  - split_and!; [done..|]. set_solver.
  - destruct (send c j).
    + specialize (IH w). destruct (notify_loop send j l w) as [w' e]. simpl in *. done.
    + specialize (IH (cancel_ctx k w)).
      destruct (notify_loop send j l (cancel_ctx k w)) as [w' e]. simpl in *.
      destruct IH as (H1 & H2 & H3 & H4). split_and!; [done..|].
      rewrite H4. simpl. set_solver.
Qed.

Lemma notify_loop_attempted send j l w :
  attempted (notify_loop send j l w).2 = l.*1.
Proof.
  revert w. induction l as [|[c k] l IH]; intros w; simpl; [done|].
  destruct (send c j).
  - specialize (IH w). destruct (notify_loop send j l w) as [w' e]. simpl in *. by rewrite IH.
  - specialize (IH (cancel_ctx k w)).
    destruct (notify_loop send j l (cancel_ctx k w)) as [w' e]. simpl in *. by rewrite IH.
Qed.

Lemma notify_loop_cancels send j l w :
  cancels (notify_loop send j l w).2 = (filter (fun e => send e.1 j = false) l).*2.
Proof.
  revert w. induction l as [|[c k] l IH]; intros w; simpl; [done|].
  rewrite filter_cons. simpl.
  destruct (send c j) eqn:Hs.
  - specialize (IH w). destruct (notify_loop send j l w) as [w' e]. simpl in *.
    rewrite IH; repeat case_decide; done.
  - specialize (IH (cancel_ctx k w)).
    destruct (notify_loop send j l (cancel_ctx k w)) as [w' e]. simpl in *.
    rewrite IH; repeat case_decide; done.
Qed.

(** Every write of the loop carries the one serialised message. *)
Lemma notify_loop_payload send j l w c j' ok :
  EvWrite c j' ok ∈ (notify_loop send j l w).2 -> j' = j.
Proof.
  revert w. induction l as [|[c0 k] l IH]; intros w; simpl; [set_solver|].
  destruct (send c0 j).
  - specialize (IH w). destruct (notify_loop send j l w) as [w' e]. simpl in *.
    rewrite elem_of_cons. intros [H|H]; [congruence|auto].
  - specialize (IH (cancel_ctx k w)).
    destruct (notify_loop send j l (cancel_ctx k w)) as [w' e]. simpl in *.
    rewrite !elem_of_cons. intros [H|[H|[H|H]]]; [congruence..|auto].
Qed.

Lemma notify_loop_failed_write send j l w c k :
  (c, k) ∈ l -> send c j = false -> EvWrite c j false ∈ (notify_loop send j l w).2.
Proof.
  revert w. induction l as [|[c0 k0] l IH]; intros w Hin Hs; [set_solver|]. simpl.
  rewrite elem_of_cons in Hin.
  destruct (send c0 j) eqn:Hs0.
  - destruct Hin as [Heq|Hin]; [simplify_eq; congruence|].
    specialize (IH w Hin Hs). destruct (notify_loop send j l w) as [w' e]. simpl in *.
    by apply elem_of_cons; right.
  - destruct Hin as [Heq|Hin].
    + simplify_eq. destruct (notify_loop send j l (cancel_ctx k0 w)). simpl. by left.
    + specialize (IH (cancel_ctx k0 w) Hin Hs).
      destruct (notify_loop send j l (cancel_ctx k0 w)) as [w' e]. simpl in *.
      rewrite !elem_of_cons. auto.
Qed.

Lemma notifyClients_world range send msg w :
  (notifyClients range send msg w).1 =
  mkWorld (subscribers w) (list_to_set (cancels (notifyClients range send msg w).2) ∪ done w)
          (lifecycles w) (next_conn w).
Proof.
  unfold notifyClients.
  destruct (subscribers w !! RoomID msg) as [m|]; [case_decide|];
    try (destruct w; simpl; f_equal; set_solver).
  pose proof (notify_loop_world send (marshal_Message msg) (range m) w) as (H1 & H2 & H3 & H4).
  destruct (notify_loop send (marshal_Message msg) (range m) w).1; simpl in *. by subst.
Qed.

Lemma lookup_register room c k (s : Subscribers) r :
  register room c k s !! r =
  if decide (room = r) then Some (<[c := k]> (default ∅ (s !! r))) else s !! r.
Proof.
  unfold register. destruct (s !! room) as [m|] eqn:Hr; case_decide; subst.
  - by rewrite lookup_insert_eq, Hr.
  - by rewrite lookup_insert_ne.
  - by rewrite lookup_insert_eq, lookup_insert_eq, Hr.
  - by rewrite !lookup_insert_ne.
Qed.

Lemma lookup_unregister room c (s : Subscribers) r :
  unregister room c s !! r =
  if decide (room = r) then delete c <$> s !! r else s !! r.
Proof.
  unfold unregister. destruct (s !! room) as [m|] eqn:Hr; case_decide; subst.
  - by rewrite lookup_insert_eq, Hr.
  - by rewrite lookup_insert_ne.
  - by rewrite Hr.
  - done.
Qed.

Lemma handleSubscribe_open_inv {Room PgMessage} (zero_Room : Room) (env : @Env Room PgMessage)
    url w o oc w' :
  handleSubscribe_open zero_Room env url w = (o, oc, w') ->
  (oc = None /\ w' = w) \/
  (exists roomID room, uuid_Parse env url = Some roomID /\ GetRoom env roomID = Ok room /\
     Upgrade env = None /\ oc = Some (next_conn w) /\
     w' = mkWorld (register url (next_conn w) (next_conn w) (subscribers w)) (done w)
            (<[next_conn w := mkLifecycle url (next_conn w) Subscribed]> (lifecycles w))
            (S (next_conn w))).
Proof.
  unfold handleSubscribe_open, readRoom.
  destruct (uuid_Parse env url) as [roomID|] eqn:Hp; [|intros [=]; auto].
  destruct (GetRoom env roomID) as [room|err] eqn:Hg;
    [|destruct (is_ErrNoRows err); intros [=]; auto].
  simpl. destruct (Upgrade env) as [[ws e]|] eqn:Hu; intros [=]; subst; [by left|].
  right. eauto 10.
Qed.

(* ------------------------------------------------------------------ *)
(** ** Claims about the dispatcher *)

(** C1: for a room whose set is [m], one dispatch attempts a write to
    every subscriber of [m] exactly once, whatever the outcome of each
    write: a failed write does not stop the loop. *)
Theorem notifyClients_sends_to_each_once range send msg w m :
  range_ok range -> subscribers w !! RoomID msg = Some m ->
  attempted (notifyClients range send msg w).2 ≡ₚ (map_to_list m).*1 /\
  NoDup (attempted (notifyClients range send msg w).2).
Proof.
  intros Hrange Hm. unfold notifyClients. rewrite Hm. case_decide as Hsz.
  - apply map_size_empty_iff in Hsz. subst m. rewrite map_to_list_empty. simpl.
    split; [done|constructor].
  - rewrite notify_loop_attempted, (Hrange m). split; [done|].
    apply NoDup_fst_map_to_list.
Qed.

(** C3: a dispatch changes nothing in the world but the done state of
    the contexts it cancels: the registry, the lifecycles and the
    allocator are those it started with; every cancellation it invokes
    belongs to a subscriber of the room whose write failed in this
    dispatch.  Across all steps of the system, a subscriber leaves its
    room's set only by the close of its own [handleSubscribe], once its
    context is done. *)
Theorem notifyClients_registry_frame range send msg w :
  range_ok range ->
  (let '(w', effs) := notifyClients range send msg w in
   w' = mkWorld (subscribers w) (list_to_set (cancels effs) ∪ done w)
                (lifecycles w) (next_conn w) /\
   (forall k, k ∈ cancels effs ->
      exists c m, subscribers w !! RoomID msg = Some m /\ m !! c = Some k /\
                  EvWrite c (marshal_Message msg) false ∈ effs)) /\
  (forall w1 w2, step w1 w2 ->
     forall r m c, subscribers w1 !! r = Some m -> c ∈ dom m ->
     (forall m', subscribers w2 !! r = Some m' -> c ∉ dom m') ->
     exists lc, lifecycles w1 !! c = Some lc /\ lc_phase lc = Subscribed /\
                lc_cancel lc ∈ done w1 /\ w2 = handleSubscribe_close c w1).
Proof.
  intros Hrange. split.
  - pose proof (notifyClients_world range send msg w) as Hw.
    destruct (notifyClients range send msg w) as [w' effs] eqn:E. simpl in Hw.
    split; [done|]. intros k Hk.
    unfold notifyClients in E.
    destruct (subscribers w !! RoomID msg) as [m|] eqn:Hm; [|simplify_eq; simpl in Hk; set_solver].
    case_decide; [simplify_eq; simpl in Hk; set_solver|].
    pose proof (notify_loop_cancels send (marshal_Message msg) (range m) w) as Hc.
    rewrite E in Hc. simpl in Hc. rewrite Hc in Hk.
    apply list_elem_of_fmap in Hk as [[c k'] [-> Hin]].
    apply list_elem_of_filter in Hin as [Hs Hin]. simpl in *.
    exists c, m. split; [done|]. split.
    + apply elem_of_map_to_list. by rewrite <- (Hrange m).
    + pose proof (notify_loop_failed_write send (marshal_Message msg) (range m) w c k' Hin Hs).
      by rewrite E in H0.
  - intros w1 w2 Hstep r m c Hm Hc Hgone. destruct Hstep as
      [Room PgMessage zero_Room env url w1 o c0 w2 Hopen| w1 c0 lc Hlc Hph
      | w1 range' send' msg' Hr' | w1 c0 lc Hlc Hph Hdone].
    + apply handleSubscribe_open_inv in Hopen as [[_ ->]|(? & ? & _ & _ & _ & _ & ->)];
        simpl in Hgone.
      * by destruct (Hgone m Hm).
      * rewrite lookup_register in Hgone. case_decide; subst.
        -- destruct (Hgone _ eq_refl). rewrite Hm. simpl. rewrite dom_insert_L. set_solver.
        -- by destruct (Hgone m Hm).
    + by destruct (Hgone m Hm).
    + rewrite notifyClients_world in Hgone. simpl in Hgone. by destruct (Hgone m Hm).
    + unfold handleSubscribe_close in Hgone. rewrite Hlc in Hgone. simpl in Hgone.
      rewrite lookup_unregister in Hgone.
      destruct (decide (c = c0)) as [->|Hne]; [by eauto|].
      exfalso. case_decide; subst.
      * rewrite Hm in Hgone. apply (Hgone _ eq_refl). rewrite dom_delete_L. set_solver.
      * by apply (Hgone m Hm).
Qed.

(** C4: when the room has no set, or an empty one, a dispatch returns
    at once: no write, no cancellation, the world unchanged.  The two
    cases give the same result. *)
Theorem notifyClients_no_subscribers range send msg w :
  subscribers w !! RoomID msg = None \/ subscribers w !! RoomID msg = Some ∅ ->
  notifyClients range send msg w = (w, []).
Proof.
  unfold notifyClients. intros [-> | ->]; [done|].
  rewrite map_size_empty. by case_decide.
Qed.

(* ------------------------------------------------------------------ *)
(** ** The registry invariant *)

Lemma world_inv_init : world_inv init_world.
Proof. split; intros *; simpl; rewrite lookup_empty; done. Qed.

Lemma world_inv_step w w' : world_inv w -> step w w' -> world_inv w'.
Proof.
  intros [Hreg Hlc] Hstep.
  destruct Hstep as [Room PgMessage zero_Room env url w o c0 w' Hopen| w c0 lc Hl Hph
      | w range send msg Hr | w c0 lc Hl Hph Hdone].
  - apply handleSubscribe_open_inv in Hopen as [[_ ->]|(? & ? & _ & _ & _ & _ & ->)];
      [done|]. split; simpl.
    + intros r m c k. rewrite lookup_register. case_decide as Hur.
      * subst url. intros [= <-]. rewrite lookup_insert.
        case_decide as Hc; [subst c; intros [= <-]; by rewrite lookup_insert_eq|].
        destruct (subscribers w !! r) as [m0|] eqn:Hm0; simpl; [|by rewrite lookup_empty].
        intros Hk. rewrite lookup_insert_ne by done. eauto.
      * intros Hm Hk. pose proof (Hreg _ _ _ _ Hm Hk) as Hc.
        destruct (Hlc _ _ Hc) as [_ Hlt]. rewrite lookup_insert_ne by lia. done.
    + intros c lc. rewrite lookup_insert. case_decide as Hc.
      * subst c. intros [= <-]. simpl. lia.
      * intros Hl. destruct (Hlc _ _ Hl). lia.
  - split; simpl; eauto.
  - rewrite notifyClients_world. split; simpl; eauto.
  - unfold handleSubscribe_close. rewrite Hl. split; simpl.
    + intros r m' c k. rewrite lookup_unregister. case_decide as Hr.
      * destruct (subscribers w !! r) as [m|] eqn:Hm; simpl; [|done].
        intros [= <-]. rewrite lookup_delete. case_decide; [done|].
        intros Hk. rewrite lookup_insert_ne by done. eauto.
      * intros Hm Hk. pose proof (Hreg _ _ _ _ Hm Hk) as Hc.
        rewrite lookup_insert_ne; [done|]. intros ->. rewrite Hl in Hc.
        by simplify_eq.
    + intros c lc'. rewrite lookup_insert. case_decide.
      * subst c. intros [= <-]. simpl. apply (Hlc _ _ Hl).
      * apply Hlc.
Qed.

Lemma reachable_world_inv w : reachable w -> world_inv w.
Proof.
  unfold reachable. intros Hr. generalize world_inv_init.
  induction Hr as [w0|w0 w1 w2 Hs Hr IH]; [done|].
  intros Hinv. apply IH. by apply (world_inv_step w0).
Qed.

(** C5: in every state reached by any interleaving of subscribes,
    dispatches, cancellations and lifecycle cleanups, a handle is in at
    most one room's set. *)
Theorem reachable_at_most_one_room w :
  reachable w -> at_most_one_room (subscribers w).
Proof.
  intros Hr r1 r2 m1 m2 c Hm1 Hm2 Hc1 Hc2.
  destruct (reachable_world_inv w Hr) as [Hreg _].
  apply elem_of_dom in Hc1 as [k1 Hk1]. apply elem_of_dom in Hc2 as [k2 Hk2].
  pose proof (Hreg _ _ _ _ Hm1 Hk1) as E1. pose proof (Hreg _ _ _ _ Hm2 Hk2) as E2.
  rewrite E1 in E2. by simplify_eq.
Qed.

(** C6: [delete(h.subscribers[room], c)] is idempotent: when the handle
    is not in the room's set, or the room has no set, the registry is
    unchanged; applying it twice is applying it once. *)
Theorem unregister_idempotent room c (s : Subscribers) :
  ((forall m, s !! room = Some m -> m !! c = None) -> unregister room c s = s) /\
  unregister room c (unregister room c s) = unregister room c s.
Proof.
  split.
  - intros Habs. unfold unregister. destruct (s !! room) as [m|] eqn:Hm; [|done].
    rewrite delete_id by auto. by apply insert_id.
  - unfold unregister. destruct (s !! room) as [m|] eqn:Hm; [|by rewrite Hm].
    rewrite lookup_insert_eq, delete_delete_eq. by rewrite insert_insert_eq.
Qed.

(* ------------------------------------------------------------------ *)
(** ** Repeated dispatches and cancellation *)

Lemma cancels_app e1 e2 : cancels (app e1 e2) = cancels e1 ++ cancels e2.
Proof.
  induction e1 as [|[] e1 IH]; simpl; rewrite ?IH; done.
Qed.

Lemma filter_none {A} (P : A -> Prop) `{!forall x, Decision (P x)} (l : list A) :
  (forall x, x ∈ l -> ~ P x) -> filter P l = [].
Proof.
  induction l as [|x l IH]; intros Hl; [done|].
  rewrite filter_cons_False by (apply Hl; set_solver). apply IH. set_solver.
Qed.

Lemma elem_of_count (k : CancelFunc) (l : list CancelFunc) :
  k ∈ l <-> 0 < length (filter (fun k' => k' = k) l).
Proof.
  split.
  - intros Hk. destruct (filter (fun k' => k' = k) l) eqn:E; simpl; [|lia].
    exfalso. by apply (filter_nil_not_elem_of _ _ k E).
  - intros Hlt. destruct (filter (fun k' => k' = k) l) as [|x f] eqn:E; simpl in Hlt; [lia|].
    assert (x ∈ filter (fun k' => k' = k) l) as Hx by (rewrite E; set_solver).
    apply list_elem_of_filter in Hx as [-> Hx]. done.
Qed.

Lemma cancel_count_map (send : Conn -> JSON -> bool) (j : JSON) (m : gmap Conn CancelFunc) c k :
  m !! c = Some k -> (forall c', m !! c' = Some k -> c' = c) ->
  length (filter (fun k' => k' = k)
            ((filter (fun e => send e.1 j = false) (map_to_list m)).*2)) =
  if send c j then 0 else 1.
Proof.
  intros Hc Hinj.
  assert (filter (fun k' => k' = k)
            ((filter (fun e => send e.1 j = false) (map_to_list (delete c m))).*2) = [])
    as Hrest.
  { apply filter_none. intros k' Hk' ->.
    apply list_elem_of_fmap in Hk' as [[c' k'] [Heq He]]. simpl in Heq. subst k'.
    apply list_elem_of_filter in He as [_ He].
    apply elem_of_map_to_list in He. rewrite lookup_delete in He.
    case_decide; [done|]. apply Hinj in He. congruence. }
  rewrite <- (insert_delete_id m c k Hc).
  rewrite map_to_list_insert by apply lookup_delete_eq.
  rewrite filter_cons. simpl.
  destruct (send c j) eqn:Hs; case_decide as Hd; simpl in Hd; try congruence;
    [by rewrite Hrest|].
  rewrite fmap_cons, filter_cons_True by done. rewrite Hrest. done.
Qed.

Lemma notifyClients_cancel_count range send msg w m c k :
  range_ok range -> subscribers w !! RoomID msg = Some m -> m !! c = Some k ->
  (forall c', m !! c' = Some k -> c' = c) ->
  length (filter (fun k' => k' = k) (cancels (notifyClients range send msg w).2)) =
  if send c (marshal_Message msg) then 0 else 1.
Proof.
  intros Hrange Hm Hc Hinj. unfold notifyClients. rewrite Hm.
  case_decide as Hsz.
  - apply map_size_empty_iff in Hsz. subst m. by rewrite lookup_empty in Hc.
  - rewrite notify_loop_cancels, (Hrange m). by apply cancel_count_map.
Qed.

Lemma dispatch_all_world ds w :
  subscribers (dispatch_all ds w).1 = subscribers w /\
  done (dispatch_all ds w).1 = list_to_set (cancels (dispatch_all ds w).2) ∪ done w.
Proof.
  revert w. induction ds as [|[[range send] msg] ds IH]; intros w; simpl; [set_solver|].
  pose proof (notifyClients_world range send msg w) as Hw.
  destruct (notifyClients range send msg w) as [w1 e1]. simpl in Hw.
  specialize (IH w1). destruct (dispatch_all ds w1) as [w2 e2]. simpl in *.
  destruct IH as [H1 H2]. rewrite H1, H2, Hw, cancels_app. simpl.
  split; [done|]. set_solver.
Qed.

Lemma dispatch_all_cancel_count ds w r m c k :
  subscribers w !! r = Some m -> m !! c = Some k ->
  (forall c', m !! c' = Some k -> c' = c) ->
  Forall (fun d => range_ok d.1.1 /\ RoomID d.2 = r) ds ->
  length (filter (fun k' => k' = k) (cancels (dispatch_all ds w).2)) =
  length (filter (fun d => d.1.2 c (marshal_Message d.2) = false) ds).
Proof.
  intros Hm Hc Hinj Hds. revert w Hm. induction ds as [|[[range send] msg] ds IH];
    intros w Hm; simpl; [done|].
  apply Forall_cons in Hds as [[Hr Hroom] Hds]. simpl in Hr, Hroom. subst r.
  pose proof (notifyClients_cancel_count range send msg w m c k Hr Hm Hc Hinj) as Hcount.
  pose proof (notifyClients_world range send msg w) as Hw.
  destruct (notifyClients range send msg w) as [w1 e1]. simpl in Hw, Hcount.
  assert (subscribers w1 !! RoomID msg = Some m) as Hm1 by (by rewrite Hw).
  specialize (IH Hds w1 Hm1). destruct (dispatch_all ds w1) as [w2 e2]. simpl in *.
  rewrite cancels_app, filter_app, length_app, IH, Hcount, filter_cons. simpl.
  destruct (send c (marshal_Message msg)); case_decide; simpl; congruence || lia.
Qed.

Lemma reachable_cancel_injective w r m c k :
  reachable w -> subscribers w !! r = Some m -> m !! c = Some k ->
  forall c', m !! c' = Some k -> c' = c.
Proof.
  intros Hr Hm Hc c' Hc'. destruct (reachable_world_inv w Hr) as [Hreg Hlc].
  pose proof (Hreg _ _ _ _ Hm Hc) as E. pose proof (Hreg _ _ _ _ Hm Hc') as E'.
  apply Hlc in E as [E _]. apply Hlc in E' as [E' _]. simpl in *. congruence.
Qed.

Lemma reachable_world_r1 : reachable world_r1.
Proof.
  apply rtc_once. eapply (step_subscribe unit unit tt sample_env "r1").
  reflexivity.
Qed.

(** C2 (counterexample): a client subscribed to "r1" whose writes fail
    is signalled twice by two dispatches that run before its cleanup:
    its cancellation is invoked once per failed write, not once. *)
Lemma dispatch_twice_cancels_twice :
  reachable world_r1 /\
  cancels (dispatch_all [(map_to_list, send_fail, msg_r1); (map_to_list, send_fail, msg_r1)]
                        world_r1).2 = [0; 0].
Proof. split; [apply reachable_world_r1|reflexivity]. Qed.

(** C2 (amended): in a reachable state, for a subscriber [c] of room
    [r] with cancellation [k], a run of dispatches to [r] with no
    cleanup in between invokes [k] exactly once per dispatch whose write
    to [c] fails; repeated invocations are idempotent: [k]'s context is
    done afterwards exactly when it was before or some write failed. *)
Theorem dispatch_cancel_once_per_failed_send ds w r m c k :
  reachable w -> subscribers w !! r = Some m -> m !! c = Some k ->
  Forall (fun d => range_ok d.1.1 /\ RoomID d.2 = r) ds ->
  length (filter (fun k' => k' = k) (cancels (dispatch_all ds w).2)) =
    length (filter (fun d => d.1.2 c (marshal_Message d.2) = false) ds) /\
  (k ∈ done (dispatch_all ds w).1 <->
     k ∈ done w \/ 0 < length (filter (fun d => d.1.2 c (marshal_Message d.2) = false) ds)).
Proof.
  intros Hr Hm Hc Hds.
  pose proof (reachable_cancel_injective w r m c k Hr Hm Hc) as Hinj.
  pose proof (dispatch_all_cancel_count ds w r m c k Hm Hc Hinj Hds) as Hcount.
  split; [done|]. rewrite (proj2 (dispatch_all_world ds w)), <- Hcount, <- elem_of_count.
  set_solver.
Qed.

(* ------------------------------------------------------------------ *)
(** ** Claims about the wire format and the handlers *)

Lemma notifyClients_payload range send msg w c j ok :
  EvWrite c j ok ∈ (notifyClients range send msg w).2 -> j = marshal_Message msg.
Proof.
  unfold notifyClients. destruct (subscribers w !! RoomID msg); [case_decide|];
    [set_solver| |set_solver].
  apply notify_loop_payload.
Qed.

(** C7: every event a handler emits reaches its subscribers as
    [{"kind": k, "value": v}] with [k] one of the four kinds and [v]
    shaped by the payload type; the room id is not in the payload: the
    bytes written are the same whatever the room id of the message. *)
Theorem delivered_wire_shape msg range send w c j ok :
  emitted msg -> EvWrite c j ok ∈ (notifyClients range send msg w).2 ->
  wire_shape j /\ forall r', j = marshal_Message (mkMessage (Kind msg) (Value msg) r').
Proof.
  intros Hem Hw. apply notifyClients_payload in Hw. subst j.
  destruct Hem as [Room PgMessage zero_Room env url body o msg Hh
                  |Room PgMessage zero_Room env url mid o msg Hh].
  - unfold handleCreateRoomMessage in Hh.
    destruct (readRoom zero_Room env url) as [o0 [[[? raw] roomID] [|]]]; simpl in Hh;
      [|done].
    destruct body as [text|]; [|done].
    destruct (InsertMessage env roomID text); simplify_eq. split; [|done].
    eexists _, _. split; [reflexivity|]. split; [set_solver|].
    split; [eauto|]. intros Hk. discriminate Hk.
  - unfold handleReactToMessage in Hh.
    destruct (readRoom zero_Room env url) as [o0 [[[? raw] roomID] [|]]]; simpl in Hh;
      [|done].
    destruct (uuid_Parse env mid) as [mID|]; [|done].
    destruct (ReactToMessage env mID); simplify_eq. split; [|done].
    eexists _, _. split; [reflexivity|]. split; [set_solver|].
    split; [intros Hk; discriminate Hk|eauto].
Qed.

(** C8: [handleSubscribe] stops before registering exactly when the
    room id does not parse, the room lookup fails, or the upgrade
    fails; the world, the registry included, is then unchanged and the
    last thing written to the response is an [http.Error].  A failed
    upgrade answers whatever the upgrader itself wrote, followed by the
    handler's 400 "failed to upgrade to websocket connection", and logs
    the error as a warning. *)
Theorem handleSubscribe_failed_accept {Room PgMessage} (zero_Room : Room)
    (env : @Env Room PgMessage) url w :
  let '(o, oc, w') := handleSubscribe_open zero_Room env url w in
  ((uuid_Parse env url = None \/
    (exists roomID err, uuid_Parse env url = Some roomID /\ GetRoom env roomID = Err err) \/
    Upgrade env <> None) <-> oc = None) /\
  (oc = None -> w' = w /\ exists msg code, last (writes o) = Some (HttpError msg code)) /\
  (forall roomID r ws err,
     uuid_Parse env url = Some roomID -> GetRoom env roomID = Ok r ->
     Upgrade env = Some (ws, err) ->
     o = mkOut (ws ++ [HttpError MsgFailedToUpgradeConnection StatusBadRequest])
               [LogWarn MsgFailedToUpgradeConnection err]).
Proof.
  unfold handleSubscribe_open, readRoom.
  destruct (uuid_Parse env url) as [roomID|] eqn:Hp.
  - destruct (GetRoom env roomID) as [room|err] eqn:Hg.
    + simpl. destruct (Upgrade env) as [[ws e]|] eqn:Hu; simpl.
      * split; [split; [done|intros _; auto]|]. split.
        -- intros _. split; [done|]. eexists _, _. by rewrite last_app.
        -- intros roomID' r ws' err' [= <-] Hg' [= <- <-]. done.
      * split; [split; [|done]|split; [done|]].
        -- intros [?|[(? & ? & [=] & ?)|?]]; [done|congruence|done].
        -- intros roomID' r ws' err' [= <-] Hg' [=].
    + destruct (is_ErrNoRows err); simpl;
        (split; [split; [done|eauto 10]|split; [eauto|]]);
        intros roomID' r ws' err' [= <-]; congruence.
  - simpl. split; [split; [done|auto]|split; [eauto|]]. intros ? ? ? ? [=].
Qed.

(** C9: [readRoom] ends in exactly one of four ways: a malformed id
    (400, "invalid room id"), an absent room (400, "room not found"),
    a store fault (logged, 500 with the fixed text "something went
    wrong", whatever the error), or the room.  Only in the last case do
    the handlers that call it go on: otherwise their whole output is the
    one of [readRoom] and nothing else happens. *)
Theorem readRoom_outcomes {Room PgMessage} (zero_Room : Room) (env : @Env Room PgMessage) raw :
  let '(o, (room, raw', roomID, ok)) := readRoom zero_Room env raw in
  ((uuid_Parse env raw = None /\
      writes o = [HttpError MsgInvalidRoomID StatusBadRequest] /\ logs o = [] /\ ok = false) \/
   (exists id0 err, uuid_Parse env raw = Some id0 /\ GetRoom env id0 = Err err /\
      is_ErrNoRows err = true /\
      writes o = [HttpError MsgRoomNotFound StatusBadRequest] /\ logs o = [] /\ ok = false) \/
   (exists id0 err, uuid_Parse env raw = Some id0 /\ GetRoom env id0 = Err err /\
      is_ErrNoRows err = false /\
      writes o = [HttpError MsgSomethingWentWrong StatusInternalServerError] /\
      logs o = [LogError MsgFailedToGetRoom err] /\ ok = false) \/
   (exists id0 r, uuid_Parse env raw = Some id0 /\ GetRoom env id0 = Ok r /\
      writes o = [] /\ logs o = [] /\ room = r /\ raw' = raw /\ roomID = id0 /\ ok = true)) /\
  (ok = false ->
   (forall marshal_Room, handleGetRoom zero_Room marshal_Room env raw = o) /\
   (forall marshal_PgMessage,
      handleGetRoomMessages zero_Room marshal_PgMessage env raw = o) /\
   (forall body, handleCreateRoomMessage zero_Room env raw body = (o, None)) /\
   (forall mid, handleReactToMessage zero_Room env raw mid = (o, None)) /\
   (forall w, handleSubscribe_open zero_Room env raw w = (o, None, w))).
Proof.
  unfold handleGetRoom, handleGetRoomMessages, handleCreateRoomMessage,
    handleReactToMessage, handleSubscribe_open.
  destruct (readRoom zero_Room env raw) as [o [[[room raw'] roomID] ok]] eqn:E.
  split.
  - unfold readRoom in E.
    destruct (uuid_Parse env raw) as [id0|] eqn:Hp.
    + destruct (GetRoom env id0) as [r|err] eqn:Hg.
      * simplify_eq. right; right; right. eauto 20.
      * destruct (is_ErrNoRows err) eqn:Hn; simplify_eq; simpl; [right; left|right; right; left];
          eauto 20.
    + simplify_eq. left. done.
  - intros ->. simpl. done.
Qed.

(** C10: when the store returns a nil slice, the room listing and the
    message listing answer [[]], never [null]; for any successful query
    the body is a JSON array. *)
Theorem listing_nil_as_empty_array {Room PgMessage} (zero_Room : Room)
    (marshal_Room : Room -> JSON) (marshal_PgMessage : PgMessage -> JSON)
    (env : @Env Room PgMessage) raw :
  (forall rooms, GetRooms env = Ok rooms ->
     exists l, handleGetRooms marshal_Room env = sendJSON (JArray l) /\
               (rooms = None -> l = [])) /\
  (forall id0 r, uuid_Parse env raw = Some id0 -> GetRoom env id0 = Ok r ->
     GetRoomMessages env id0 = Ok None ->
     handleGetRoomMessages zero_Room marshal_PgMessage env raw = sendJSON (JArray [])).
Proof.
  split.
  - intros rooms Hr. unfold handleGetRooms. rewrite Hr.
    destruct rooms as [l|]; simpl; (eexists; split; [reflexivity|]); congruence.
  - intros id0 r Hp Hg Hm. unfold handleGetRoomMessages, readRoom.
    rewrite Hp, Hg. simpl. rewrite Hm. done.
Qed.

(* ------------------------------------------------------------------ *)
(** ** Witnesses *)

Lemma range_ok_map_to_list : range_ok map_to_list.
Proof. intros m. done. Qed.

Lemma notifyClients_sends_to_each_once_witness :
  range_ok map_to_list /\
  subscribers world_r1_2 !! RoomID msg_r1 = Some (<[1:=1]> (<[0:=0]> ∅)) /\
  attempted (notifyClients map_to_list send_fail_0 msg_r1 world_r1_2).2
    ≡ₚ (map_to_list (<[1:=1]> (<[0:=0]> ∅) : gmap Conn CancelFunc)).*1 /\
  NoDup (attempted (notifyClients map_to_list send_fail_0 msg_r1 world_r1_2).2).
Proof.
  split; [apply range_ok_map_to_list|]. split; [reflexivity|].
  apply notifyClients_sends_to_each_once; [apply range_ok_map_to_list|reflexivity].
Defined.

Lemma notifyClients_registry_frame_witness :
  range_ok map_to_list /\
  (let '(w', effs) := notifyClients map_to_list send_fail_0 msg_r1 world_r1_2 in
   w' = mkWorld (subscribers world_r1_2) (list_to_set (cancels effs) ∪ done world_r1_2)
                (lifecycles world_r1_2) (next_conn world_r1_2) /\
   (forall k, k ∈ cancels effs ->
      exists c m, subscribers world_r1_2 !! RoomID msg_r1 = Some m /\ m !! c = Some k /\
                  EvWrite c (marshal_Message msg_r1) false ∈ effs)) /\
  (forall w1 w2, step w1 w2 ->
     forall r m c, subscribers w1 !! r = Some m -> c ∈ dom m ->
     (forall m', subscribers w2 !! r = Some m' -> c ∉ dom m') ->
     exists lc, lifecycles w1 !! c = Some lc /\ lc_phase lc = Subscribed /\
                lc_cancel lc ∈ done w1 /\ w2 = handleSubscribe_close c w1).
Proof.
  split; [apply range_ok_map_to_list|].
  apply notifyClients_registry_frame. apply range_ok_map_to_list.
Defined.

Lemma notifyClients_no_subscribers_witness :
  (subscribers world_r1_left !! RoomID msg_r1 = None \/
   subscribers world_r1_left !! RoomID msg_r1 = Some ∅) /\
  notifyClients map_to_list send_fail msg_r1 world_r1_left = (world_r1_left, []).
Proof.
  assert (subscribers world_r1_left !! RoomID msg_r1 = None \/
          subscribers world_r1_left !! RoomID msg_r1 = Some ∅) as H by (right; reflexivity).
  split; [exact H|]. apply notifyClients_no_subscribers. exact H.
Defined.

Lemma reachable_at_most_one_room_witness :
  reachable world_r1_2 /\ at_most_one_room (subscribers world_r1_2).
Proof.
  assert (reachable world_r1_2) as Hr.
  { eapply rtc_l; [|apply rtc_once].
    - eapply (step_subscribe unit unit tt sample_env "r1"). reflexivity.
    - eapply (step_subscribe unit unit tt sample_env "r1"). reflexivity. }
  split; [exact Hr|]. apply reachable_at_most_one_room. exact Hr.
Defined.

Lemma dispatch_cancel_once_per_failed_send_witness :
  reachable world_r1 /\
  subscribers world_r1 !! "r1" = Some (<[0:=0]> ∅) /\
  (<[0:=0]> ∅ : gmap Conn CancelFunc) !! 0 = Some 0 /\
  Forall (fun d => range_ok d.1.1 /\ RoomID d.2 = "r1")
    [(map_to_list, send_fail, msg_r1); (map_to_list, send_fail, msg_r1)] /\
  let ds := [(map_to_list, send_fail, msg_r1); (map_to_list, send_fail, msg_r1)] in
  length (filter (fun k' => k' = 0) (cancels (dispatch_all ds world_r1).2)) =
    length (filter (fun d => d.1.2 0 (marshal_Message d.2) = false) ds) /\
  (0 ∈ done (dispatch_all ds world_r1).1 <->
     0 ∈ done world_r1 \/
     0 < length (filter (fun d => d.1.2 0 (marshal_Message d.2) = false) ds)).
Proof.
  assert (Forall (fun d => range_ok d.1.1 /\ RoomID d.2 = "r1")
    [(map_to_list, send_fail, msg_r1); (map_to_list, send_fail, msg_r1)]) as Hds.
  { repeat constructor; apply range_ok_map_to_list. }
  split; [apply reachable_world_r1|]. split; [reflexivity|]. split; [reflexivity|].
  split; [exact Hds|].
  apply (dispatch_cancel_once_per_failed_send _ world_r1 "r1" (<[0:=0]> ∅));
    [apply reachable_world_r1|reflexivity|reflexivity|exact Hds].
Defined.

Lemma delivered_wire_shape_witness :
  emitted msg_r1 /\
  EvWrite 0 (marshal_Message msg_r1) false
    ∈ (notifyClients map_to_list send_fail_0 msg_r1 world_r1_2).2 /\
  wire_shape (marshal_Message msg_r1) /\
  forall r', marshal_Message msg_r1 = marshal_Message (mkMessage (Kind msg_r1) (Value msg_r1) r').
Proof.
  assert (emitted msg_r1) as Hem.
  { eapply (emitted_create unit unit tt sample_env "r1" (Some "hi")). reflexivity. }
  assert (EvWrite 0 (marshal_Message msg_r1) false
    ∈ (notifyClients map_to_list send_fail_0 msg_r1 world_r1_2).2) as Hin.
  { apply list_elem_of_In. vm_compute. intuition auto. }
  split; [exact Hem|]. split; [exact Hin|].
  exact (delivered_wire_shape msg_r1 map_to_list send_fail_0 world_r1_2 0 _ false Hem Hin).
Defined.

(* ------------------------------------------------------------------ *)
(** ** Further properties of the registry, the dispatcher and the
       lifecycles *)

(** After [register room c k], the room's set maps [c] to [k] and keeps
    every earlier subscriber (other than [c]) with its cancellation;
    every other room is unchanged. *)
Theorem register_lookup room c k (s : Subscribers) :
  (exists m, register room c k s !! room = Some m /\ m !! c = Some k /\
     forall c', c' <> c -> m !! c' = default ∅ (s !! room) !! c') /\
  forall r, r <> room -> register room c k s !! r = s !! r.
Proof.
  split.
  - rewrite lookup_register. case_decide; [|done].
    eexists. split; [reflexivity|]. split; [apply lookup_insert_eq|].
    intros c' Hne. by rewrite lookup_insert_ne.
  - intros r Hne. rewrite lookup_register. case_decide; [congruence|done].
Qed.

(** Registering a handle new to its room and then unregistering it
    gives back the registry, except when the room had no set: then an
    empty set is left behind for it. *)
Theorem unregister_register room c k (s : Subscribers) :
  (forall m, s !! room = Some m -> m !! c = None ->
     unregister room c (register room c k s) = s) /\
  (s !! room = None -> unregister room c (register room c k s) = <[room := ∅]> s).
Proof.
  unfold unregister, register. split.
  - intros m Hm Hc. rewrite Hm, !lookup_insert_eq, Hm. simpl.
    rewrite insert_insert_eq, delete_insert_id by done. by apply insert_id.
  - intros Hm. rewrite Hm, !lookup_insert_eq. simpl.
    rewrite insert_insert_eq, insert_insert_eq, delete_insert_eq. done.
Qed.

Lemma notify_loop_all_ok send j l w :
  (forall c, c ∈ l.*1 -> send c j = true) ->
  notify_loop send j l w = (w, map (fun e => EvWrite e.1 j true) l).
Proof.
  revert w. induction l as [|[c k] l IH]; intros w Hok; [done|]. simpl.
  rewrite Hok by (simpl; set_solver). rewrite IH; [done|].
  intros c' Hc'. apply Hok. simpl. set_solver.
Qed.

(** A dispatch in which every write succeeds cancels nothing, logs
    nothing and leaves the world as it was. *)
Theorem notifyClients_all_sent range send msg w :
  (forall c, send c (marshal_Message msg) = true) ->
  (notifyClients range send msg w).1 = w /\
  cancels (notifyClients range send msg w).2 = [] /\
  logged (notifyClients range send msg w).2 = [] /\
  failed_writes (notifyClients range send msg w).2 = [].
Proof.
  intros Hok. unfold notifyClients.
  destruct (subscribers w !! RoomID msg) as [m|]; [case_decide|]; try done.
  rewrite notify_loop_all_ok by auto. simpl.
  generalize (range m). intros l. induction l as [|[c k] l IH]; simpl; [done|].
  by destruct IH as (_ & -> & -> & ->).
Qed.

Lemma notify_loop_counts send j l w :
  failed_writes (notify_loop send j l w).2 = (filter (fun e => send e.1 j = false) l).*1 /\
  logged (notify_loop send j l w).2 =
    map (fun _ => MsgFailedToSendMessage) (filter (fun e => send e.1 j = false) l).
Proof.
  revert w. induction l as [|[c k] l IH]; intros w; simpl; [done|].
  rewrite filter_cons. destruct (send c j) eqn:Hs.
  - specialize (IH w). destruct (notify_loop send j l w) as [w' e]. simpl in *.
    case_decide; [congruence|]. done.
  - specialize (IH (cancel_ctx k w)).
    destruct (notify_loop send j l (cancel_ctx k w)) as [w' e]. simpl in *.
    case_decide; [|congruence]. destruct IH as [-> ->]. done.
Qed.

(** In a dispatch, failed writes, "failed to send message to client"
    log lines and cancellations come in equal numbers, one of each per
    subscriber whose write failed. *)
Theorem notifyClients_failures_pair_up range send msg w :
  length (failed_writes (notifyClients range send msg w).2) =
    length (cancels (notifyClients range send msg w).2) /\
  logged (notifyClients range send msg w).2 =
    map (fun _ => MsgFailedToSendMessage) (failed_writes (notifyClients range send msg w).2).
Proof.
  unfold notifyClients.
  destruct (subscribers w !! RoomID msg) as [m|]; [case_decide|]; try done.
  destruct (notify_loop_counts send (marshal_Message msg) (range m) w) as [Hf Hl].
  rewrite Hf, Hl, notify_loop_cancels, !length_fmap.
  split; [done|]. by rewrite <- list_fmap_compose.
Qed.

Lemma reachable_registered_subscribed w r m c k :
  reachable w -> subscribers w !! r = Some m -> m !! c = Some k ->
  lifecycles w !! c = Some (mkLifecycle r k Subscribed) /\ k = c.
Proof.
  intros Hr Hm Hc. destruct (reachable_world_inv w Hr) as [Hreg Hlc].
  pose proof (Hreg _ _ _ _ Hm Hc) as E. split; [done|].
  apply Hlc in E as [E _]. done.
Qed.

Lemma attempted_registered range send msg w c :
  range_ok range -> c ∈ attempted (notifyClients range send msg w).2 ->
  exists m k, subscribers w !! RoomID msg = Some m /\ m !! c = Some k.
Proof.
  intros Hrange. unfold notifyClients.
  destruct (subscribers w !! RoomID msg) as [m|]; [case_decide|]; simpl; try set_solver.
  rewrite notify_loop_attempted, (Hrange m).
  intros Hc. apply list_elem_of_fmap in Hc as [[c' k] [-> Hin]].
  apply elem_of_map_to_list in Hin. eauto.
Qed.

(** In every reachable state, a registered handle belongs to a running
    lifecycle subscribed to that very room, and its cancellation is its
    own context; so a handle whose lifecycle is closed is in no room's
    set. *)
Theorem reachable_registered_live w :
  reachable w ->
  (forall r m c k, subscribers w !! r = Some m -> m !! c = Some k ->
     lifecycles w !! c = Some (mkLifecycle r k Subscribed) /\ k = c) /\
  (forall c lc, lifecycles w !! c = Some lc -> lc_phase lc = Closed ->
     forall r m, subscribers w !! r = Some m -> m !! c = None).
Proof.
  intros Hr. split; [intros; by eapply reachable_registered_subscribed|].
  intros c lc Hlc Hph r m Hm. destruct (m !! c) as [k|] eqn:Hc; [|done].
  destruct (reachable_registered_subscribed w r m c k Hr Hm Hc) as [E _].
  pose proof (eq_trans (eq_sym Hlc) E) as E'. simplify_eq.
Qed.

Lemma step_keeps_closed w w' c lc :
  reachable w -> step w w' -> lifecycles w !! c = Some lc -> lc_phase lc = Closed ->
  lifecycles w' !! c = Some lc.
Proof.
  intros Hr Hstep Hlc Hph. destruct (reachable_world_inv w Hr) as [_ Hinv].
  destruct Hstep as [Room PgMessage zero_Room env url w o c0 w' Hopen| w c0 lc0 Hl Hph0
      | w range send msg Hr' | w c0 lc0 Hl Hph0 Hdone].
  - apply handleSubscribe_open_inv in Hopen as [[_ ->]|(? & ? & _ & _ & _ & _ & ->)];
      [done|]. simpl. destruct (Hinv _ _ Hlc) as [_ Hlt].
    rewrite lookup_insert_ne by lia. done.
  - done.
  - by rewrite notifyClients_world.
  - unfold handleSubscribe_close. rewrite Hl. simpl.
    rewrite lookup_insert_ne; [done|]. intros ->. rewrite Hl in Hlc. simplify_eq.
    rewrite Hph in Hph0. discriminate.
Qed.

(** Once a subscriber's [handleSubscribe] has cleaned up, no later
    dispatch, after any further subscribes, dispatches, cancellations
    and cleanups, attempts a write to it. *)
Theorem closed_conn_not_attempted w c lc w' range send msg :
  reachable w -> lifecycles w !! c = Some lc -> lc_phase lc = Subscribed ->
  lc_cancel lc ∈ done w -> range_ok range ->
  rtc step (handleSubscribe_close c w) w' ->
  c ∉ attempted (notifyClients range send msg w').2.
Proof.
  intros Hr Hlc Hph Hdone Hrange Hlater Hin.
  set (lc' := mkLifecycle (lc_room lc) (lc_cancel lc) Closed).
  assert (reachable (handleSubscribe_close c w) /\
          lifecycles (handleSubscribe_close c w) !! c = Some lc') as Hstart.
  { split; [eapply rtc_r; [exact Hr|]; by eapply step_unsubscribe|].
    unfold handleSubscribe_close. rewrite Hlc. simpl. by rewrite lookup_insert_eq. }
  assert (reachable w' /\ lifecycles w' !! c = Some lc') as [Hr' Hc'].
  { clear Hin. induction Hlater as [w0|w0 w1 w2 Hs Hl IH]; [done|].
    apply IH. destruct Hstart as [Hr0 Hc0]. split; [by eapply rtc_r|].
    by eapply step_keeps_closed. }
  apply attempted_registered in Hin as (m & k & Hm & Hc); [|done].
  destruct (reachable_registered_subscribed _ _ _ _ _ Hr' Hm Hc) as [E _].
  pose proof (eq_trans (eq_sym Hc') E) as E'. discriminate E'.
Qed.

(* ------------------------------------------------------------------ *)
(** ** Further properties of the handlers *)

(** Only two event kinds are ever emitted: message_created and
    message_reaction_increased: message_reaction_decreased and
    message_answered never reach a subscriber. *)
Theorem emitted_kinds msg :
  emitted msg ->
  Kind msg = MessageKindMessageCreated \/ Kind msg = MessageKindMessageRactionIncreased.
Proof.
  intros [Room PgMessage zero_Room env url body o m Hh
         |Room PgMessage zero_Room env url mid o m Hh].
  - unfold handleCreateRoomMessage in Hh.
    destruct (readRoom zero_Room env url) as [o0 [[[? raw] roomID] [|]]]; simpl in Hh;
      [|done].
    destruct body as [text|]; [|done].
    destruct (InsertMessage env roomID text); simplify_eq. by left.
  - unfold handleReactToMessage in Hh.
    destruct (readRoom zero_Room env url) as [o0 [[[? raw] roomID] [|]]]; simpl in Hh;
      [|done].
    destruct (uuid_Parse env mid) as [mID|]; [|done].
    destruct (ReactToMessage env mID); simplify_eq. by right.
Qed.

(** [handleCreateRoomMessage] emits an event exactly when the room
    resolves, the body decodes and the insert succeeds.  The event is
    routed by the raw [room_id] text of the URL and carries the text and
    the same id the response body [{"id": ..}] returns. *)
Theorem handleCreateRoomMessage_event {Room PgMessage} (zero_Room : Room)
    (env : @Env Room PgMessage) url body :
  let '(o, ev) := handleCreateRoomMessage zero_Room env url body in
  (forall msg, ev = Some msg ->
     exists roomID r text id,
       uuid_Parse env url = Some roomID /\ GetRoom env roomID = Ok r /\
       body = Some text /\ InsertMessage env roomID text = Ok id /\
       msg = mkMessage MessageKindMessageCreated
               (AnyMessageCreated (mkMessageCreated (uuid_String env id) text)) url /\
       writes o = [HeaderSet "Content-Type" "application/json";
                   Body (JObject [("id", JString (uuid_String env id))])]) /\
  (ev = None ->
     exists msg code, last (writes o) = Some (HttpError msg code)).
Proof.
  unfold handleCreateRoomMessage, readRoom.
  destruct (uuid_Parse env url) as [roomID|] eqn:Hp; simpl.
  2: { split; [done|]. eauto. }
  destruct (GetRoom env roomID) as [r|err] eqn:Hg; simpl.
  2: { destruct (is_ErrNoRows err); simpl; (split; [done|eauto]). }
  destruct body as [text|]; simpl; [|split; [done|eauto]].
  destruct (InsertMessage env roomID text) as [id|err] eqn:Hi; simpl.
  - split; [|done]. intros msg [= <-]. eauto 12.
  - split; [done|]. eauto.
Qed.

(** [handleReactToMessage] emits an event exactly when the room
    resolves, the message id parses and the store increments the
    count; the event carries the raw message id of the URL and the count
    the response [{"count": n}] returns.  Any store error, a missing
    message included, is logged and answered 500 "something went
    wrong", with no event. *)
Theorem handleReactToMessage_event {Room PgMessage} (zero_Room : Room)
    (env : @Env Room PgMessage) url mid :
  let '(o, ev) := handleReactToMessage zero_Room env url mid in
  (forall msg, ev = Some msg ->
     exists roomID r mID n,
       uuid_Parse env url = Some roomID /\ GetRoom env roomID = Ok r /\
       uuid_Parse env mid = Some mID /\ ReactToMessage env mID = Ok n /\
       msg = mkMessage MessageKindMessageRactionIncreased
               (AnyMessageReactionCount (mkMessageReactionCount mid n)) url /\
       writes o = [HeaderSet "Content-Type" "application/json";
                   Body (JObject [("count", JNumber n)])]) /\
  (forall roomID r mID err,
     uuid_Parse env url = Some roomID -> GetRoom env roomID = Ok r ->
     uuid_Parse env mid = Some mID -> ReactToMessage env mID = Err err ->
     ev = None /\
     writes o = [HttpError MsgSomethingWentWrong StatusInternalServerError] /\
     logs o = [LogError MsgFailedToReactToMessage err]).
Proof.
  unfold handleReactToMessage, readRoom.
  destruct (uuid_Parse env url) as [roomID|] eqn:Hp; simpl.
  2: { split; [done|]. intros * [=]. }
  destruct (GetRoom env roomID) as [r|err] eqn:Hg; simpl.
  2: { destruct (is_ErrNoRows err); simpl; (split; [done|]); intros * [= <-]; congruence. }
  destruct (uuid_Parse env mid) as [mID|] eqn:Hm; simpl.
  2: { split; [done|]. intros * _ _ [=]. }
  destruct (ReactToMessage env mID) as [n|err] eqn:Hr; simpl.
  - split.
    + intros msg [= <-]. eauto 12.
    + intros * [= <-] _ [= <-]. congruence.
  - split; [done|]. intros * [= <-] _ [= <-]. rewrite Hr. intros [= <-]. done.
Qed.

(** Events are routed by the raw [room_id] text, not by the parsed
    UUID: in any reachable state, a subscriber registered under one
    spelling of a room id is not written to for a message posted under
    another spelling, even when both texts parse to the same room. *)
Theorem events_routed_by_raw_room_id {Room PgMessage} (zero_Room : Room)
    (env : @Env Room PgMessage) u_sub u_post body w m c o msg range send :
  reachable w -> subscribers w !! u_sub = Some m -> c ∈ dom m ->
  handleCreateRoomMessage zero_Room env u_post body = (o, Some msg) ->
  u_post <> u_sub -> range_ok range ->
  c ∉ attempted (notifyClients range send msg w).2.
Proof.
  intros Hr Hm Hc Hpost Hne Hrange Hin.
  assert (RoomID msg = u_post) as Hroom.
  { unfold handleCreateRoomMessage in Hpost.
    destruct (readRoom zero_Room env u_post) as [o0 [[[? raw] roomID] ok]] eqn:E.
    destruct ok; simpl in Hpost; [|done].
    assert (raw = u_post) as ->.
    { unfold readRoom in E. destruct (uuid_Parse env u_post) as [id|]; [|done].
      destruct (GetRoom env id) as [?|err]; [by simplify_eq|].
      destruct (is_ErrNoRows err); done. }
    destruct body as [text|]; [|done].
    destruct (InsertMessage env roomID text); by simplify_eq. }
  apply attempted_registered in Hin as (m' & k' & Hm' & Hk'); [|done].
  rewrite Hroom in Hm'. apply elem_of_dom in Hc as [k Hk].
  destruct (reachable_registered_subscribed _ _ _ _ _ Hr Hm Hk) as [E1 _].
  destruct (reachable_registered_subscribed _ _ _ _ _ Hr Hm' Hk') as [E2 _].
  pose proof (eq_trans (eq_sym E1) E2) as E. simplify_eq.
Qed.

(** [handleGetRoomMessage], once the room resolves: a message id that
    does not parse is answered 400 "invalid message id"; a missing
    message 404 "message not found" (a missing room is 400); any other
    store error is logged and answered 500 "something went wrong";
    otherwise the message is sent as JSON.  A failed room lookup ends
    the handler with the output of [readRoom]. *)
Theorem handleGetRoomMessage_outcomes {Room PgMessage} (zero_Room : Room)
    (marshal_PgMessage : PgMessage -> JSON) (env : @Env Room PgMessage) GetMessage url mid :
  let h := handleGetRoomMessage zero_Room marshal_PgMessage env GetMessage url mid in
  ((readRoom zero_Room env url).2.2 = false -> h = (readRoom zero_Room env url).1) /\
  (forall roomID r, uuid_Parse env url = Some roomID -> GetRoom env roomID = Ok r ->
     (uuid_Parse env mid = None ->
        h = mkOut [HttpError MsgInvalidMessageID StatusBadRequest] []) /\
     (forall mID err, uuid_Parse env mid = Some mID -> GetMessage mID = Err err ->
        h = if is_ErrNoRows err
            then mkOut [HttpError MsgMessageNotFound StatusNotFound] []
            else mkOut [HttpError MsgSomethingWentWrong StatusInternalServerError]
                       [LogError MsgFailedToGetMessage err]) /\
     (forall mID message, uuid_Parse env mid = Some mID -> GetMessage mID = Ok message ->
        h = sendJSON (marshal_PgMessage message))).
Proof.
  unfold handleGetRoomMessage. split.
  - destruct (readRoom zero_Room env url) as [o [[[? ?] ?] ok]]. simpl. by intros ->.
  - intros roomID r Hp Hg. unfold readRoom. rewrite Hp, Hg. simpl.
    split; [by intros ->|]. split.
    + intros mID err Hm He. rewrite Hm, He. by destruct (is_ErrNoRows err).
    + intros mID message Hm He. by rewrite Hm, He.
Qed.


(* ------------------------------------------------------------------ *)
(** ** Witnesses of the further properties *)

Lemma reachable_world_r1_2 : reachable world_r1_2.
Proof.
  eapply rtc_r; [apply reachable_world_r1|].
  eapply (step_subscribe unit unit tt sample_env "r1"). reflexivity.
Qed.

Lemma reachable_world_r1_2_dc : reachable (cancel_ctx 0 world_r1_2).
Proof.
  eapply rtc_r; [apply reachable_world_r1_2|].
  apply (step_disconnect world_r1_2 0 (mkLifecycle "r1" 0 Subscribed)); reflexivity.
Qed.

Lemma reachable_world_r1_2_left : reachable world_r1_2_left.
Proof.
  eapply rtc_r; [apply reachable_world_r1_2_dc|].
  apply (step_unsubscribe _ 0 (mkLifecycle "r1" 0 Subscribed)); [reflexivity..|].
  simpl. set_solver.
Qed.

Lemma notifyClients_all_sent_witness :
  (forall c, (fun (_ : Conn) (_ : JSON) => true) c (marshal_Message msg_r1) = true) /\
  (notifyClients map_to_list (fun (_ : Conn) (_ : JSON) => true) msg_r1 world_r1_2).1 = world_r1_2 /\
  cancels (notifyClients map_to_list (fun (_ : Conn) (_ : JSON) => true) msg_r1 world_r1_2).2 = [] /\
  logged (notifyClients map_to_list (fun (_ : Conn) (_ : JSON) => true) msg_r1 world_r1_2).2 = [] /\
  failed_writes (notifyClients map_to_list (fun (_ : Conn) (_ : JSON) => true) msg_r1 world_r1_2).2 = [].
Proof.
  split; [done|]. apply notifyClients_all_sent. done.
Defined.

Lemma reachable_registered_live_witness :
  reachable world_r1_2_left /\
  (forall r m c k, subscribers world_r1_2_left !! r = Some m -> m !! c = Some k ->
     lifecycles world_r1_2_left !! c = Some (mkLifecycle r k Subscribed) /\ k = c) /\
  (forall c lc, lifecycles world_r1_2_left !! c = Some lc -> lc_phase lc = Closed ->
     forall r m, subscribers world_r1_2_left !! r = Some m -> m !! c = None).
Proof.
  split; [apply reachable_world_r1_2_left|].
  apply reachable_registered_live. apply reachable_world_r1_2_left.
Defined.

Lemma emitted_kinds_witness :
  emitted msg_r1 /\
  (Kind msg_r1 = MessageKindMessageCreated \/ Kind msg_r1 = MessageKindMessageRactionIncreased).
Proof.
  assert (emitted msg_r1) as Hem.
  { eapply (emitted_create unit unit tt sample_env "r1" (Some "hi")). reflexivity. }
  split; [exact Hem|]. apply emitted_kinds. exact Hem.
Defined.


Lemma closed_conn_not_attempted_witness :
  reachable (cancel_ctx 0 world_r1_2) /\
  lifecycles (cancel_ctx 0 world_r1_2) !! 0 = Some (mkLifecycle "r1" 0 Subscribed) /\
  lc_phase (mkLifecycle "r1" 0 Subscribed) = Subscribed /\
  lc_cancel (mkLifecycle "r1" 0 Subscribed) ∈ done (cancel_ctx 0 world_r1_2) /\
  range_ok map_to_list /\
  rtc step (handleSubscribe_close 0 (cancel_ctx 0 world_r1_2))
           (handleSubscribe_open tt sample_env "r1" world_r1_2_left).2 /\
  0 ∉ attempted (notifyClients map_to_list send_fail msg_r1
                   (handleSubscribe_open tt sample_env "r1" world_r1_2_left).2).2.
Proof.
  assert (lc_cancel (mkLifecycle "r1" 0 Subscribed) ∈ done (cancel_ctx 0 world_r1_2)) as Hd.
  { simpl. set_solver. }
  assert (rtc step (handleSubscribe_close 0 (cancel_ctx 0 world_r1_2))
                   (handleSubscribe_open tt sample_env "r1" world_r1_2_left).2) as Hs.
  { apply rtc_once. eapply (step_subscribe unit unit tt sample_env "r1"). reflexivity. }
  split; [apply reachable_world_r1_2_dc|]. split; [reflexivity|]. split; [reflexivity|].
  split; [exact Hd|]. split; [apply range_ok_map_to_list|]. split; [exact Hs|].
  apply (closed_conn_not_attempted (cancel_ctx 0 world_r1_2) 0 (mkLifecycle "r1" 0 Subscribed));
    [apply reachable_world_r1_2_dc|reflexivity|reflexivity|exact Hd
    |apply range_ok_map_to_list|exact Hs].
Defined.

Lemma events_routed_by_raw_room_id_witness :
  uuid_Parse sample_env "R1" = uuid_Parse sample_env "r1" /\
  reachable (handleSubscribe_open tt sample_env "R1" init_world).2 /\
  subscribers (handleSubscribe_open tt sample_env "R1" init_world).2 !! "R1" =
    Some {[0 := 0]} /\
  0 ∈ dom ({[0 := 0]} : gmap Conn CancelFunc) /\
  handleCreateRoomMessage tt sample_env "r1" (Some "hi") =
    ((handleCreateRoomMessage tt sample_env "r1" (Some "hi")).1, Some msg_r1) /\
  "r1" <> "R1" /\ range_ok map_to_list /\
  0 ∉ attempted (notifyClients map_to_list send_fail msg_r1
                   (handleSubscribe_open tt sample_env "R1" init_world).2).2.
Proof.
  assert (reachable (handleSubscribe_open tt sample_env "R1" init_world).2) as H0.
  { apply rtc_once. eapply (step_subscribe unit unit tt sample_env "R1"). reflexivity. }
  assert (subscribers (handleSubscribe_open tt sample_env "R1" init_world).2 !! "R1" =
    Some {[0 := 0]}) as H1 by reflexivity.
  assert (0 ∈ dom ({[0 := 0]} : gmap Conn CancelFunc)) as H2 by set_solver.
  assert (handleCreateRoomMessage tt sample_env "r1" (Some "hi") =
    ((handleCreateRoomMessage tt sample_env "r1" (Some "hi")).1, Some msg_r1)) as H3
    by reflexivity.
  assert ("r1" <> "R1") as H4 by done.
  split; [reflexivity|]. split; [exact H0|]. split; [exact H1|]. split; [exact H2|].
  split; [exact H3|]. split; [exact H4|]. split; [apply range_ok_map_to_list|].
  exact (events_routed_by_raw_room_id tt sample_env "R1" "r1" (Some "hi") _ _ 0 _ msg_r1
           map_to_list send_fail H0 H1 H2 H3 H4 range_ok_map_to_list).
Defined.

(** A handshake rejected by the upgrader (400) is answered twice: first
    by the upgrader, then by the handler. *)
Lemma handleSubscribe_upgrade_rejected :
  writes (handleSubscribe_open tt
            (@mkEnv unit unit (fun _ => Some 1%Z) (fun _ => "m1") (fun _ => Ok tt) (Ok None)
                   (fun _ => Ok None) (fun _ _ => Ok 7%Z) (fun _ => Ok 3%Z)
                   (Some (upgrader_returnError "Bad Request" StatusBadRequest,
                          ErrOther "websocket: the client is not using the websocket protocol")))
            "r1" init_world).1.1 =
  [HeaderSet "Sec-Websocket-Version" "13"; HttpError "Bad Request" 400;
   HttpError MsgFailedToUpgradeConnection 400].
Proof. reflexivity. Qed.
